(** * lfmq: the single-producer/single-consumer ring queue and its message envelope

    A shallow embedding of [include/lock_free_queue.hpp], [include/message.hpp]
    and [src/message.cpp], with the sequential properties of the queue
    (full/empty tests, wrap-around, FIFO order, usable capacity) and of the
    envelope (payload copy, size bound, frame properties, swap). *)

From Stdlib Require Import ZArith Lia List String.
From stdpp Require Import base list.

Local Open Scope Z_scope.

(** ** [size_t] arithmetic *)

(** [size_t] is an unsigned 64-bit integer; [++] and [+ 1] wrap around. *)
Definition SIZE_MAX : Z := 2 ^ 64 - 1.

Definition size_t_wrap (z : Z) : Z := z mod (SIZE_MAX + 1).

(** ** The queue: [lfmq::SpscQueue<_T, _size>] *)

Module Queue.
Section SpscQueue.

(** Template parameters.  [T_default] is the value of a default-constructed
    [_T] ([std::is_default_constructible_v<_T>]); the constraint
    [_size > 2] appears as a hypothesis of the theorems. *)
Context {_T : Type}.
Variable T_default : _T.
Variable _size : Z.

(** [_T elements[_size]; std::atomic<size_t> read_index, write_index;] *)
Record SpscQueue : Type := mkSpscQueue {
  elements : list _T;
  read_index : Z;
  write_index : Z
}.

(** A freshly constructed queue: default-constructed slots, both indices 0. *)
Definition fresh : SpscQueue :=
  {| elements := replicate (Z.to_nat _size) T_default;
     read_index := 0;
     write_index := 0 |}.

Definition capacity : Z := _size.

(** [this->elements[i]]; an index outside the array is undefined behaviour
    in the source and reads [T_default] here. *)
Definition slot (q : SpscQueue) (i : Z) : _T :=
  default T_default (elements q !! Z.to_nat i).

Definition is_empty (q : SpscQueue) : bool :=
  read_index q =? write_index q.

Definition front (q : SpscQueue) : _T := slot q (read_index q).

(** [_push]: returns the result and the queue afterwards. *)
Definition _push (q : SpscQueue) (element : _T) : bool * SpscQueue :=
  let curr_write_index := write_index q in
  let next_write_index := size_t_wrap (curr_write_index + 1) in
  let next_write_index :=
    if next_write_index =? capacity then 0 else next_write_index in
  if read_index q =? next_write_index then (false, q)
  else
    (true,
     {| elements := <[Z.to_nat curr_write_index := element]> (elements q);
        read_index := read_index q;
        write_index := next_write_index |}).

(** Both public overloads forward to [_push]. *)
Definition push (q : SpscQueue) (element : _T) : bool * SpscQueue :=
  _push q element.

(** [pop]: the out-parameter [_T* const element] is [None] for [nullptr]
    and [Some x] for a pointer to an object currently holding [x]; the
    second component of the result is that object after the call. *)
Definition pop (q : SpscQueue) (element : option _T)
  : bool * option _T * SpscQueue :=
  let curr_read_index := read_index q in
  let curr_write_index := write_index q in
  if curr_read_index =? curr_write_index then (false, element, q)
  else
    let element' :=
      match element with
      | Some _ => Some (slot q curr_read_index)
      | None => None
      end in
    let curr_read_index := size_t_wrap (curr_read_index + 1) in
    let curr_read_index :=
      if curr_read_index =? capacity then 0 else curr_read_index in
    (true, element',
     {| elements := elements q;
        read_index := curr_read_index;
        write_index := write_index q |}).

(** The representation invariant: both indices range over [0, _size) and
    the storage has exactly [_size] slots. *)
Definition wf (q : SpscQueue) : Prop :=
  0 <= read_index q < _size /\
  0 <= write_index q < _size /\
  Z.of_nat (length (elements q)) = _size.

(** Number of queued elements, and the queued elements oldest first. *)
Definition count (q : SpscQueue) : Z :=
  (write_index q - read_index q) mod _size.

Definition contents (q : SpscQueue) : list _T :=
  map (fun k : nat => slot q ((read_index q + Z.of_nat k) mod _size))
      (seq 0 (Z.to_nat (count q))).

(** *** Running sequences of operations *)

(** Consecutive pushes with no pop in between. *)
Fixpoint push_all (q : SpscQueue) (vs : list _T) : list bool * SpscQueue :=
  match vs with
  | [] => ([], q)
  | v :: vs' =>
      let '(ok, q1) := push q v in
      let '(oks, q2) := push_all q1 vs' in
      (ok :: oks, q2)
  end.

Inductive op : Type :=
| Push (v : _T)
| Pop (element : option _T).

(** What a caller observes of one call. *)
Inductive event : Type :=
| EvPush (v : _T) (ok : bool)
| EvPop (ok : bool) (element : option _T).

Fixpoint run (q : SpscQueue) (ops : list op) : list event * SpscQueue :=
  match ops with
  | [] => ([], q)
  | Push v :: ops' =>
      let '(ok, q1) := push q v in
      let '(evs, q2) := run q1 ops' in
      (EvPush v ok :: evs, q2)
  | Pop element :: ops' =>
      let '(ok, element', q1) := pop q element in
      let '(evs, q2) := run q1 ops' in
      (EvPop ok element' :: evs, q2)
  end.

(** Values accepted by successful pushes, and values handed out by
    successful pops, in call order. *)
Fixpoint accepted (evs : list event) : list _T :=
  match evs with
  | [] => []
  | EvPush v true :: evs' => v :: accepted evs'
  | _ :: evs' => accepted evs'
  end.

Fixpoint popped (evs : list event) : list _T :=
  match evs with
  | [] => []
  | EvPop true (Some x) :: evs' => x :: popped evs'
  | _ :: evs' => popped evs'
  end.

Definition pops_want_value (ops : list op) : Prop :=
  Forall (fun o => match o with Pop None => False | _ => True end) ops.

(** *** The bounded FIFO list queue of the specification

    "Usable capacity is N - 1 elements", "strict FIFO order": a list with
    pushes appended at the back while fewer than [_size - 1] elements are
    queued, and pops taken from the head. *)
Definition fifo_push (l : list _T) (v : _T) : bool * list _T :=
  if Z.of_nat (length l) <? _size - 1 then (true, l ++ [v]) else (false, l).

Definition fifo_pop (l : list _T) (element : option _T)
  : bool * option _T * list _T :=
  match l with
  | [] => (false, element, [])
  | x :: l' =>
      (true, match element with Some _ => Some x | None => None end, l')
  end.

Fixpoint fifo_run (l : list _T) (ops : list op) : list event * list _T :=
  match ops with
  | [] => ([], l)
  | Push v :: ops' =>
      let '(ok, l1) := fifo_push l v in
      let '(evs, l2) := fifo_run l1 ops' in
      (EvPush v ok :: evs, l2)
  | Pop element :: ops' =>
      let '(ok, element', l1) := fifo_pop l element in
      let '(evs, l2) := fifo_run l1 ops' in
      (EvPop ok element' :: evs, l2)
  end.

(** Number of successful pushes and of successful pops among the calls. *)
Fixpoint pushes_ok (evs : list event) : nat :=
  match evs with
  | [] => 0%nat
  | EvPush _ true :: evs' => S (pushes_ok evs')
  | _ :: evs' => pushes_ok evs'
  end.

Fixpoint pops_ok (evs : list event) : nat :=
  match evs with
  | [] => 0%nat
  | EvPop true _ :: evs' => S (pops_ok evs')
  | _ :: evs' => pops_ok evs'
  end.

End SpscQueue.
End Queue.

(** ** The envelope: [lfmq::Message] *)

Module Msg.

Inductive MessageType : Type :=
| UNKNOWN
| RESUME
| PAUSE
| STOP
| VOLUME
| RESIZE
| EFFECT_ADDED
| EFFECT_REMOVED
| EFFECT_ENABLED
| EFFECT_DISABLED
| PLAY_AT.

Record MessageMetadata : Type := mkMessageMetadata { m_type : MessageType }.

(** [MessageMetadata()] and [MessageMetadata(type)]. *)
Definition MessageMetadata_default : MessageMetadata := {| m_type := UNKNOWN |}.
Definition MessageMetadata_of (type : MessageType) : MessageMetadata :=
  {| m_type := type |}.

Definition get_type (md : MessageMetadata) : MessageType := m_type md.
Definition set_type (md : MessageMetadata) (type : MessageType)
  : MessageMetadata := {| m_type := type |}.

Definition MAX_MESSAGE_SIZE : Z := 512.

(** [char payload[MAX_MESSAGE_SIZE]] as a list of bytes, [size_t
    payload_size] as an integer. *)
Record Message : Type := mkMessage {
  metadata : MessageMetadata;
  payload : list Byte.byte;
  payload_size : Z
}.

Definition zeroed : list Byte.byte :=
  replicate (Z.to_nat MAX_MESSAGE_SIZE) Byte.x00.

(** [constexpr Message()]. *)
Definition Message_default : Message :=
  {| metadata := MessageMetadata_default;
     payload := zeroed;
     payload_size := 0 |}.

(** [memcpy(dst, src, n)] on the bytes found at [src].  The source requires
    [n] readable bytes at [src]; every caller in the repository passes the
    size of the object [src] points to. *)
Definition memcpy (dst src : list Byte.byte) (n : nat) : list Byte.byte :=
  take n src ++ drop n dst.

(** [bool Message::set_payload(const void* const data, const size_t size)]:
    [data] is [None] for [nullptr], [Some src] for a pointer to the bytes
    [src]. *)
Definition set_payload_bytes (m : Message) (data : option (list Byte.byte))
    (size : Z) : bool * Message :=
  match data with
  | None => (false, m)
  | Some src =>
      if MAX_MESSAGE_SIZE <? size then (false, m)
      else
        (true,
         {| metadata := metadata m;
            payload := memcpy (payload m) src (Z.to_nat size);
            payload_size := size |})
  end.

Definition set_metadata (m : Message) (md : MessageMetadata) : Message :=
  {| metadata := md; payload := payload m; payload_size := payload_size m |}.

Definition get_metadata (m : Message) : MessageMetadata := metadata m.
Definition get_payload_size (m : Message) : Z := payload_size m.

(** [get_payload<_T>()]: the object of type [_T] seen at the start of the
    buffer, as its [sizeof(_T)] bytes. *)
Definition get_payload (sizeof_T : nat) (m : Message) : list Byte.byte :=
  take sizeof_T (payload m).

(** *** Arguments of the forwarding-reference templates

    [set_payload(_T&& data)] and [Message(const MessageMetadata&, _T&& data)]
    deduce [_T] from the argument expression: for an lvalue of type [U],
    [_T] is [U&]; for an rvalue of type [U], [_T] is [U].  An argument is
    described by what the templates ask of it. *)
Inductive value_category : Type := lvalue | rvalue.

Record argument : Type := mkArgument {
  (** the argument's type [U] is a pointer type *)
  arg_pointer : bool;
  arg_category : value_category;
  (** [data == nullptr] (asked of pointers only) *)
  arg_null : bool;
  (** the object representation, [sizeof(U)] bytes *)
  arg_bytes : list Byte.byte
}.

(** [sizeof(_T)]; the size of a reference type is that of the referenced
    type. *)
Definition sizeof (a : argument) : Z := Z.of_nat (length (arg_bytes a)).

(** [std::is_pointer_v<_T>] is false for a reference type, so it holds only
    when a pointer is passed as an rvalue. *)
Definition is_pointer_v (a : argument) : bool :=
  match arg_category a with
  | rvalue => arg_pointer a
  | lvalue => false
  end.

(** Inside a function the named parameter [data] is an lvalue expression. *)
Definition named (a : argument) : argument :=
  {| arg_pointer := arg_pointer a;
     arg_category := lvalue;
     arg_null := arg_null a;
     arg_bytes := arg_bytes a |}.

(** [template<typename _T> bool set_payload(_T&& data)]; [&data] is the
    address of the argument object and never null. *)
Definition set_payload (m : Message) (data : argument) : bool * Message :=
  if is_pointer_v data && arg_null data then (false, m)
  else set_payload_bytes m (Some (arg_bytes data)) (sizeof data).

Inductive outcome (A : Type) : Type :=
| returned (a : A)
| thrown (what : string).
Arguments returned {A} a.
Arguments thrown {A} what.

(** [template<typename _T> Message(const MessageMetadata& metadata, _T&& data)]:
    [payload()] and [payload_size()] value-initialise to zero, then
    [this->set_payload(data)] is called on the named parameter. *)
Definition Message_ctor (md : MessageMetadata) (data : argument)
  : outcome Message :=
  let this :=
    {| metadata := md; payload := zeroed; payload_size := 0 |} in
  let '(set_payload_result, this) := set_payload this (named data) in
  if is_pointer_v data then
    if negb set_payload_result
    then thrown "Null pointer passed in as data"
    else returned this
  else returned this.

(** [friend void swap(Message& lhs, Message& rhs)]: the two envelopes after
    the call.  The first statement is [swap(lhs.metadata, lhs.metadata)],
    which exchanges [lhs.metadata] with itself; [rhs.metadata] is not
    named. *)
Definition std_swap {A : Type} (a b : A) : A * A := (b, a).

Definition swap (lhs rhs : Message) : Message * Message :=
  let '(lhs_metadata, _) := std_swap (metadata lhs) (metadata lhs) in
  let '(lhs_payload, rhs_payload) := std_swap (payload lhs) (payload rhs) in
  let '(lhs_payload_size, rhs_payload_size) :=
    std_swap (payload_size lhs) (payload_size rhs) in
  ({| metadata := lhs_metadata;
      payload := lhs_payload;
      payload_size := lhs_payload_size |},
   {| metadata := metadata rhs;
      payload := rhs_payload;
      payload_size := rhs_payload_size |}).

(** Envelopes obtainable through the public interface.  The clause
    [requires (sizeof(_T) <= MAX_MESSAGE_SIZE)] of the templates is a
    premise of the corresponding rules. *)
Inductive reachable : Message -> Prop :=
| reach_default : reachable Message_default
| reach_ctor md data m :
    sizeof data <= MAX_MESSAGE_SIZE ->
    Message_ctor md data = returned m ->
    reachable m
| reach_set_payload m data :
    reachable m ->
    sizeof data <= MAX_MESSAGE_SIZE ->
    reachable (snd (set_payload m data))
| reach_set_metadata m md :
    reachable m -> reachable (set_metadata m md)
| reach_swap_lhs lhs rhs :
    reachable lhs -> reachable rhs -> reachable (fst (swap lhs rhs))
| reach_swap_rhs lhs rhs :
    reachable lhs -> reachable rhs -> reachable (snd (swap lhs rhs)).

End Msg.

(** * Properties *)

Lemma size_t_wrap_small z : 0 <= z <= SIZE_MAX -> size_t_wrap z = z.
Proof. intros H. unfold size_t_wrap. apply Z.mod_small. lia. Qed.

(** The two shapes a value below [n + n] takes modulo [n]. *)
Lemma mod_once (n a : Z) :
  0 < n -> 0 <= a < n + n -> a mod n = if a <? n then a else a - n.
Proof.
  intros Hn Ha. destruct (Z.ltb_spec a n) as [Hlt | Hge].
  - apply Z.mod_small. lia.
  - symmetry. apply (Z.mod_unique_pos a n 1 (a - n)); lia.
Qed.

Lemma mod_diff (n a : Z) :
  0 < n -> - n < a < n -> a mod n = if 0 <=? a then a else a + n.
Proof.
  intros Hn Ha. destruct (Z.leb_spec 0 a) as [Hle | Hlt].
  - apply Z.mod_small. lia.
  - symmetry. apply (Z.mod_unique_pos a n (-1) (a + n)); lia.
Qed.


(** ** The queue *)

Section QueueProperties.
Import Queue.

Context {_T : Type}.
Variable T_default : _T.
Variable _size : Z.

(** [requires (_size > 2)], and [_size] is a [size_t]. *)
Hypothesis size_ok : 2 < _size <= SIZE_MAX.

Local Abbreviation Q := (@SpscQueue _T).
Local Abbreviation wf := (wf _size).
Local Abbreviation push := (push _size).
Local Abbreviation pop := (pop T_default _size).
Local Abbreviation slot := (slot T_default).
Local Abbreviation count := (count _size).
Local Abbreviation contents := (contents T_default _size).
Local Abbreviation fresh := (fresh T_default _size).

(** The increment-and-reset of an index is the successor modulo [_size]. *)
Lemma next_index (i : Z) :
  0 <= i < _size ->
  (if size_t_wrap (i + 1) =? capacity _size then 0 else size_t_wrap (i + 1))
  = (i + 1) mod _size.
Proof using size_ok.
  intros Hi. unfold capacity.
  rewrite size_t_wrap_small by lia.
  rewrite mod_once by lia.
  destruct (Z.eqb_spec (i + 1) _size) as [E | E];
    destruct (Z.ltb_spec (i + 1) _size); lia.
Qed.

Lemma next_index_range (i : Z) : 0 <= (i + 1) mod _size < _size.
Proof using size_ok. apply Z.mod_pos_bound. lia. Qed.

Lemma push_unfold (q : Q) (v : _T) :
  wf q ->
  push q v =
    if read_index q =? (write_index q + 1) mod _size then (false, q)
    else (true,
          {| elements := <[Z.to_nat (write_index q) := v]> (elements q);
             read_index := read_index q;
             write_index := (write_index q + 1) mod _size |}).
Proof using size_ok.
  intros (_ & Hw & _). unfold Queue.push, _push. cbv zeta.
  now rewrite (next_index _ Hw).
Qed.

Lemma pop_unfold (q : Q) (element : option _T) :
  wf q ->
  pop q element =
    if read_index q =? write_index q then (false, element, q)
    else (true,
          match element with
          | Some _ => Some (slot q (read_index q))
          | None => None
          end,
          {| elements := elements q;
             read_index := (read_index q + 1) mod _size;
             write_index := write_index q |}).
Proof using size_ok.
  intros (Hr & _ & _). unfold Queue.pop. cbv zeta.
  now rewrite (next_index _ Hr).
Qed.

Lemma wf_fresh : wf fresh.
Proof using size_ok.
  unfold Queue.wf, Queue.fresh; simpl. rewrite length_replicate. lia.
Qed.

Lemma wf_push (q : Q) (v : _T) : wf q -> wf (snd (push q v)).
Proof using size_ok.
  intros Hq. rewrite push_unfold by assumption.
  destruct (read_index q =? _); [assumption |].
  destruct Hq as (Hr & Hw & Hl). unfold Queue.wf; simpl.
  rewrite length_insert. auto using next_index_range.
Qed.

Lemma wf_pop (q : Q) (element : option _T) : wf q -> wf (snd (pop q element)).
Proof using size_ok.
  intros Hq. rewrite pop_unfold by assumption.
  destruct (read_index q =? _); [assumption |].
  destruct Hq as (Hr & Hw & Hl). unfold Queue.wf; simpl.
  auto using next_index_range.
Qed.

(** *** Counting the queued elements *)

Ltac index_cases :=
  repeat match goal with
    | H : context [if _ then _ else _] |- _ => revert H
    end;
  repeat match goal with
    | |- context [if ?a <? ?b then _ else _] => destruct (Z.ltb_spec a b)
    | |- context [if ?a <=? ?b then _ else _] => destruct (Z.leb_spec a b)
    end; try lia.

Lemma count_range (q : Q) : 0 <= count q < _size.
Proof using size_ok. apply Z.mod_pos_bound. lia. Qed.

Lemma count_empty (q : Q) :
  wf q -> (read_index q = write_index q <-> count q = 0).
Proof using size_ok.
  intros (Hr & Hw & _). unfold Queue.count.
  rewrite mod_diff by lia. index_cases.
Qed.

Lemma count_full (q : Q) :
  wf q ->
  ((write_index q + 1) mod _size = read_index q <-> count q = _size - 1).
Proof using size_ok.
  intros (Hr & Hw & _). unfold Queue.count.
  rewrite (mod_diff _ (write_index q - read_index q)) by lia.
  rewrite (mod_once _ (write_index q + 1)) by lia. index_cases.
Qed.

Lemma count_after_push (q : Q) (v : _T) :
  wf q -> fst (push q v) = true -> count (snd (push q v)) = count q + 1.
Proof using size_ok.
  intros Hq. rewrite push_unfold by assumption.
  destruct (Z.eqb_spec (read_index q) ((write_index q + 1) mod _size))
    as [E | E]; [discriminate |]. intros _. simpl.
  assert (Hc : count q <> _size - 1) by (rewrite <- count_full; auto).
  revert E Hc. destruct Hq as (Hr & Hw & _). unfold Queue.count; simpl.
  pose proof (next_index_range (write_index q)) as Hn.
  pose proof (mod_once _size (write_index q + 1)) as Hm.
  set (nw := (write_index q + 1) mod _size) in *.
  rewrite !mod_diff by lia. intros E Hc.
  specialize (Hm ltac:(lia) ltac:(lia)). index_cases.
Qed.

Lemma count_after_pop (q : Q) (element : option _T) :
  wf q -> fst (fst (pop q element)) = true ->
  count (snd (pop q element)) = count q - 1.
Proof using size_ok.
  intros Hq. rewrite pop_unfold by assumption.
  destruct (Z.eqb_spec (read_index q) (write_index q))
    as [E | E]; [discriminate |]. intros _. simpl.
  destruct Hq as (Hr & Hw & _). unfold Queue.count; simpl.
  pose proof (next_index_range (read_index q)) as Hn.
  pose proof (mod_once _size (read_index q + 1)) as Hm.
  set (nr := (read_index q + 1) mod _size) in *.
  rewrite !mod_diff by lia.
  specialize (Hm ltac:(lia) ltac:(lia)). index_cases.
Qed.

Lemma push_success (q : Q) (v : _T) :
  wf q -> fst (push q v) = true ->
  push q v =
    (true,
     {| elements := <[Z.to_nat (write_index q) := v]> (elements q);
        read_index := read_index q;
        write_index := (write_index q + 1) mod _size |}).
Proof using size_ok.
  intros Hq. rewrite push_unfold by assumption.
  destruct (read_index q =? _); [discriminate | reflexivity].
Qed.

Lemma pop_success (q : Q) (element : option _T) :
  wf q -> fst (fst (pop q element)) = true ->
  pop q element =
    (true,
     match element with
     | Some _ => Some (slot q (read_index q))
     | None => None
     end,
     {| elements := elements q;
        read_index := (read_index q + 1) mod _size;
        write_index := write_index q |}).
Proof using size_ok.
  intros Hq. rewrite pop_unfold by assumption.
  destruct (read_index q =? _); [discriminate | reflexivity].
Qed.

Lemma push_result (q : Q) (v : _T) :
  wf q -> fst (push q v) = (count q <? _size - 1).
Proof using size_ok.
  intros Hq. pose proof (count_full q Hq) as Hf.
  pose proof (count_range q) as Hc.
  rewrite push_unfold by assumption.
  destruct (Z.eqb_spec (read_index q) ((write_index q + 1) mod _size));
    destruct (Z.ltb_spec (count q) (_size - 1)); simpl; try reflexivity.
  - assert (count q = _size - 1) by (apply Hf; congruence). lia.
  - assert ((write_index q + 1) mod _size = read_index q)
      by (apply Hf; lia). congruence.
Qed.

Lemma pop_result (q : Q) (element : option _T) :
  wf q -> fst (fst (pop q element)) = negb (count q =? 0).
Proof using size_ok.
  intros Hq. pose proof (count_empty q Hq) as He.
  rewrite pop_unfold by assumption.
  destruct (Z.eqb_spec (read_index q) (write_index q));
    destruct (Z.eqb_spec (count q) 0); simpl; tauto.
Qed.

(** *** The queued elements *)

(** The [k]-th queued slot is not the slot the next push writes, and the
    slot after the last queued one is. *)
Lemma queued_index (q : Q) (k : Z) :
  wf q -> 0 <= k < count q ->
  (read_index q + k) mod _size <> write_index q.
Proof using size_ok.
  intros (Hr & Hw & _). pose proof (count_range q) as Hc.
  unfold Queue.count in *.
  rewrite (mod_diff _ (write_index q - read_index q)) in * by lia.
  intros Hk. rewrite mod_once by lia. index_cases.
Qed.

Lemma write_index_after_queued (q : Q) :
  wf q -> (read_index q + count q) mod _size = write_index q.
Proof using size_ok.
  intros (Hr & Hw & _). pose proof (count_range q) as Hc.
  revert Hc. unfold Queue.count.
  rewrite (mod_diff _ (write_index q - read_index q)) by lia.
  intros Hc. rewrite mod_once by index_cases. index_cases.
Qed.

Lemma contents_length (q : Q) : Z.of_nat (length (contents q)) = count q.
Proof using size_ok.
  unfold Queue.contents. rewrite length_map, length_seq.
  pose proof (count_range q). lia.
Qed.

Lemma contents_fresh : contents fresh = [].
Proof using size_ok.
  unfold Queue.contents, Queue.count, Queue.fresh; cbn [read_index write_index].
  rewrite Z.sub_diag, Z.mod_0_l by lia. reflexivity.
Qed.

Lemma contents_after_push (q : Q) (v : _T) :
  wf q -> fst (push q v) = true ->
  contents (snd (push q v)) = contents q ++ [v].
Proof using size_ok.
  intros Hq Hok. unfold Queue.contents.
  rewrite count_after_push by assumption.
  pose proof (count_range q) as Hc.
  replace (Z.to_nat (count q + 1)) with (S (Z.to_nat (count q))) by lia.
  rewrite seq_S, map_app. rewrite push_success by assumption. simpl.
  destruct Hq as (Hr & Hw & Hl). f_equal.
  - apply map_ext_in. intros k Hk. apply in_seq in Hk.
    unfold Queue.slot; simpl. rewrite list_lookup_insert_ne; [reflexivity |].
    pose proof (queued_index q (Z.of_nat k) (conj Hr (conj Hw Hl))) as Hne.
    pose proof (Z.mod_pos_bound (read_index q + Z.of_nat k) _size).
    lia.
  - rewrite Z2Nat.id by lia.
    rewrite (write_index_after_queued q (conj Hr (conj Hw Hl))).
    unfold Queue.slot; simpl. rewrite list_lookup_insert_eq by lia.
    reflexivity.
Qed.

Lemma contents_before_pop (q : Q) (element : option _T) :
  wf q -> fst (fst (pop q element)) = true ->
  contents q = slot q (read_index q) :: contents (snd (pop q element)).
Proof using size_ok.
  intros Hq Hok. unfold Queue.contents.
  pose proof (count_after_pop q element Hq Hok) as Hc.
  pose proof (count_range (snd (pop q element))) as Hc'.
  replace (Z.to_nat (count q))
    with (S (Z.to_nat (count (snd (pop q element))))) by lia.
  rewrite pop_success by assumption.
  cbn [seq map snd read_index elements].
  destruct Hq as (Hr & Hw & Hl). f_equal.
  - replace (read_index q + Z.of_nat 0) with (read_index q) by lia.
    rewrite (Z.mod_small (read_index q) _size) by lia. reflexivity.
  - rewrite <- seq_shift, map_map. apply map_ext. intros k.
    unfold Queue.slot; simpl elements.
    rewrite Zplus_mod_idemp_l. do 4 f_equal. lia.
Qed.

Lemma push_fail (q : Q) (v : _T) :
  wf q -> fst (push q v) = false -> push q v = (false, q).
Proof using size_ok.
  intros Hq. rewrite push_unfold by assumption.
  destruct (read_index q =? _); [reflexivity | discriminate].
Qed.

Lemma pop_fail (q : Q) (element : option _T) :
  wf q -> fst (fst (pop q element)) = false ->
  pop q element = (false, element, q).
Proof using size_ok.
  intros Hq. rewrite pop_unfold by assumption.
  destruct (read_index q =? _); [reflexivity | discriminate].
Qed.

(** *** One step of the ring is one step of the list queue *)

Local Abbreviation fifo_push := (fifo_push _size).

Lemma push_simulates (q : Q) (v : _T) :
  wf q ->
  fifo_push (contents q) v = (fst (push q v), contents (snd (push q v))).
Proof using size_ok.
  intros Hq. unfold Queue.fifo_push.
  rewrite contents_length, <- (push_result q v Hq).
  destruct (fst (push q v)) eqn:Hok.
  - now rewrite contents_after_push.
  - now rewrite (push_fail q v Hq Hok).
Qed.

Lemma pop_simulates (q : Q) (element : option _T) :
  wf q ->
  fifo_pop (contents q) element =
    (fst (fst (pop q element)), snd (fst (pop q element)),
     contents (snd (pop q element))).
Proof using size_ok.
  intros Hq. destruct (fst (fst (pop q element))) eqn:Hok.
  - rewrite (contents_before_pop q element Hq Hok).
    rewrite (pop_success q element Hq Hok). reflexivity.
  - assert (Hnil : contents q = []).
    { apply length_zero_iff_nil.
      pose proof (contents_length q) as Hlen.
      rewrite (pop_result q element Hq) in Hok.
      destruct (Z.eqb_spec (count q) 0); [lia | discriminate]. }
    rewrite (pop_fail q element Hq Hok). simpl. now rewrite Hnil.
Qed.

Lemma run_simulates (ops : list op) : forall q : Q,
  wf q ->
  fst (run T_default _size q ops) = fst (fifo_run _size (contents q) ops) /\
  contents (snd (run T_default _size q ops))
  = snd (fifo_run _size (contents q) ops).
Proof using size_ok.
  induction ops as [| [v | element] ops IH]; intros q Hq; simpl.
  - auto.
  - rewrite (push_simulates q v Hq).
    pose proof (wf_push q v Hq) as Hq1.
    destruct (push q v) as [ok q1]. simpl in *.
    destruct (IH q1 Hq1) as [IH1 IH2].
    destruct (run T_default _size q1 ops), (fifo_run _size (contents q1) ops).
    simpl in *. now subst.
  - rewrite (pop_simulates q element Hq).
    pose proof (wf_pop q element Hq) as Hq1.
    destruct (pop q element) as [[ok element'] q1]. simpl in *.
    destruct (IH q1 Hq1) as [IH1 IH2].
    destruct (run T_default _size q1 ops), (fifo_run _size (contents q1) ops).
    simpl in *. now subst.
Qed.

(** What was queued plus what was accepted since is what was handed out
    followed by what is still queued. *)
Lemma run_fifo_order (ops : list op) : forall q : Q,
  wf q -> pops_want_value ops ->
  contents q ++ accepted (fst (run T_default _size q ops))
  = popped (fst (run T_default _size q ops))
    ++ contents (snd (run T_default _size q ops)).
Proof using size_ok.
  induction ops as [| [v | element] ops IH]; intros q Hq Hops; simpl.
  - now rewrite app_nil_r.
  - apply Forall_cons_iff in Hops as [_ Hops].
    pose proof (wf_push q v Hq) as Hq1.
    pose proof (contents_after_push q v Hq) as Hpush.
    pose proof (push_fail q v Hq) as Hfail.
    destruct (push q v) as [ok q1]. simpl in *.
    specialize (IH q1 Hq1 Hops).
    destruct (run T_default _size q1 ops) as [evs q2]. simpl in *.
    destruct ok.
    + rewrite <- IH, Hpush by reflexivity. now rewrite <- app_assoc.
    + specialize (Hfail eq_refl). now inversion Hfail; subst.
  - apply Forall_cons_iff in Hops as [Hwant Hops].
    destruct element as [old |]; [| contradiction].
    pose proof (wf_pop q (Some old) Hq) as Hq1.
    pose proof (contents_before_pop q (Some old) Hq) as Hpop.
    pose proof (pop_success q (Some old) Hq) as Hsucc.
    pose proof (pop_fail q (Some old) Hq) as Hfail.
    destruct (pop q (Some old)) as [[ok element'] q1]. simpl in *.
    specialize (IH q1 Hq1 Hops).
    destruct (run T_default _size q1 ops) as [evs q2]. simpl in *.
    destruct ok.
    + specialize (Hsucc eq_refl). inversion Hsucc; subst element'.
      rewrite Hpop by reflexivity. simpl. now rewrite IH.
    + specialize (Hfail eq_refl). inversion Hfail; subst. exact IH.
Qed.

(** *** Consecutive pushes *)

Lemma push_all_results (vs : list _T) : forall q : Q,
  wf q ->
  fst (push_all _size q vs)
  = replicate (Nat.min (length vs) (Z.to_nat (_size - 1 - count q))) true
    ++ replicate (length vs - Z.to_nat (_size - 1 - count q)) false.
Proof using size_ok.
  induction vs as [| v vs IH]; intros q Hq; simpl.
  - reflexivity.
  - pose proof (push_result q v Hq) as Hres.
    pose proof (wf_push q v Hq) as Hq1.
    pose proof (count_after_push q v Hq) as Hcnt.
    pose proof (push_fail q v Hq) as Hfail.
    pose proof (count_range q) as Hc.
    destruct (push q v) as [ok q1]. simpl in *.
    specialize (IH q1 Hq1).
    destruct (push_all _size q1 vs) as [oks q2]. simpl in *. subst oks.
    destruct (Z.ltb_spec (count q) (_size - 1)); subst ok.
    + rewrite Hcnt by reflexivity.
      replace (Z.to_nat (_size - 1 - count q))
        with (S (Z.to_nat (_size - 1 - (count q + 1)))) by lia.
      reflexivity.
    + specialize (Hfail eq_refl). inversion Hfail; subst q1.
      replace (Z.to_nat (_size - 1 - count q)) with 0%nat by lia.
      simpl. now rewrite Nat.min_0_r, Nat.sub_0_r.
Qed.

(** *** The operations *)

(** C2. In every state of the queue (indices in [0, _size), [_size] slots)
    and for every element [v], [push v] returns [false] and leaves the queue
    unchanged exactly when (write index + 1) mod [_size] equals the read
    index; otherwise it stores [v] into the slot at the write index, sets the
    write index to (write index + 1) mod [_size], and returns [true]. *)
Theorem push_full_or_store (q : Q) (v : _T) :
  wf q ->
  (push q v = (false, q)
   <-> (write_index q + 1) mod _size = read_index q) /\
  (fst (push q v) = false
   <-> (write_index q + 1) mod _size = read_index q) /\
  ((write_index q + 1) mod _size <> read_index q ->
   push q v =
     (true,
      {| elements := <[Z.to_nat (write_index q) := v]> (elements q);
         read_index := read_index q;
         write_index := (write_index q + 1) mod _size |}) /\
   slot (snd (push q v)) (write_index q) = v).
Proof using size_ok.
  intros Hq. rewrite push_unfold by assumption.
  destruct (Z.eqb_spec (read_index q) ((write_index q + 1) mod _size))
    as [E | E]; simpl.
  - repeat split; auto; congruence.
  - repeat split; try congruence.
    destruct Hq as (_ & Hw & Hl). unfold Queue.slot; simpl.
    rewrite list_lookup_insert_eq by lia. reflexivity.
Qed.

(** C3. In every state of the queue, [pop out] returns [false] and leaves
    both the queue and the out-parameter untouched exactly when the read
    index equals the write index; otherwise it returns [true], copies the
    slot at the read index into [out] when [out] is provided and copies
    nothing when it is null, advances the read index to (read index + 1) mod
    [_size], and leaves the slot storage as it was. *)
Theorem pop_empty_or_advance (q : Q) (element : option _T) :
  wf q ->
  (pop q element = (false, element, q)
   <-> read_index q = write_index q) /\
  (fst (fst (pop q element)) = false
   <-> read_index q = write_index q) /\
  (read_index q <> write_index q ->
   pop q element =
     (true,
      match element with
      | Some _ => Some (slot q (read_index q))
      | None => None
      end,
      {| elements := elements q;
         read_index := (read_index q + 1) mod _size;
         write_index := write_index q |})).
Proof using size_ok.
  intros Hq. rewrite pop_unfold by assumption.
  destruct (Z.eqb_spec (read_index q) (write_index q)) as [E | E]; simpl;
    repeat split; auto; congruence.
Qed.

(** C4. With no pop in between, the results of consecutive pushes are at
    most [_size - 1] times [true] and [false] from then on, whatever the
    values; on a freshly constructed queue the first [_size - 1] pushes
    succeed and every later one, the [_size]-th included, returns [false]:
    the usable capacity is exactly [_size - 1]. *)
Theorem usable_capacity :
  (forall (q : Q) (vs : list _T),
      wf q ->
      exists k : nat,
        (k <= Z.to_nat (_size - 1))%nat /\
        fst (push_all _size q vs)
        = replicate k true ++ replicate (length vs - k) false) /\
  (forall vs : list _T,
      fst (push_all _size fresh vs)
      = replicate (Nat.min (length vs) (Z.to_nat (_size - 1))) true
        ++ replicate (length vs - Z.to_nat (_size - 1)) false) /\
  (forall vs : list _T,
      length vs = Z.to_nat _size ->
      fst (push_all _size fresh vs)
      = replicate (Z.to_nat (_size - 1)) true ++ [false]).
Proof using size_ok.
  assert (Hfresh : forall vs : list _T,
      fst (push_all _size fresh vs)
      = replicate (Nat.min (length vs) (Z.to_nat (_size - 1))) true
        ++ replicate (length vs - Z.to_nat (_size - 1)) false).
  { intros vs. rewrite (push_all_results vs fresh wf_fresh).
    unfold Queue.count, Queue.fresh; cbn [read_index write_index].
    rewrite Z.sub_diag, Z.mod_0_l, Z.sub_0_r by lia. reflexivity. }
  split; [| split].
  - intros q vs Hq. pose proof (count_range q) as Hc.
    exists (Nat.min (length vs) (Z.to_nat (_size - 1 - count q))). split.
    + lia.
    + rewrite (push_all_results vs q Hq). do 2 f_equal. lia.
  - exact Hfresh.
  - intros vs Hlen. rewrite Hfresh, Hlen.
    replace (Nat.min (Z.to_nat _size) (Z.to_nat (_size - 1)))
      with (Z.to_nat (_size - 1)) by lia.
    replace (Z.to_nat _size - Z.to_nat (_size - 1))%nat with 1%nat by lia.
    reflexivity.
Qed.

(** C1. For every sequence of push and pop calls run one after the other on
    a queue that starts empty, the ring buffer answers every call as the
    bounded FIFO list queue of capacity [_size - 1] does and holds the same
    elements afterwards; and when every pop asks for the value, the values
    accepted by successful pushes are, in order, the values returned by
    successful pops followed by the elements still queued. *)
Theorem spsc_fifo_refinement (ops : list op) :
  fst (run T_default _size fresh ops) = fst (fifo_run _size [] ops) /\
  contents (snd (run T_default _size fresh ops))
  = snd (fifo_run _size [] ops) /\
  (pops_want_value ops ->
   accepted (fst (run T_default _size fresh ops))
   = popped (fst (run T_default _size fresh ops))
     ++ contents (snd (run T_default _size fresh ops))).
Proof using size_ok.
  pose proof (run_simulates ops fresh wf_fresh) as [Hev Hst].
  rewrite contents_fresh in Hev, Hst.
  split; [exact Hev | split; [exact Hst |]].
  intros Hops. pose proof (run_fifo_order ops fresh wf_fresh Hops) as Hfifo.
  now rewrite contents_fresh in Hfifo.
Qed.

(** *** Further properties of the queue operations *)

Local Abbreviation run := (run T_default _size).
Local Abbreviation front := (front T_default).

Lemma run_wf (ops : list op) : forall q : Q, wf q -> wf (snd (run q ops)).
Proof using size_ok.
  induction ops as [| [v | element] ops IH]; intros q Hq; simpl.
  - exact Hq.
  - pose proof (wf_push q v Hq) as Hq1.
    destruct (push q v) as [ok q1]. specialize (IH q1 Hq1).
    now destruct (run q1 ops).
  - pose proof (wf_pop q element Hq) as Hq1.
    destruct (pop q element) as [[ok element'] q1]. specialize (IH q1 Hq1).
    now destruct (run q1 ops).
Qed.

Lemma is_empty_count (q : Q) : wf q -> is_empty q = (count q =? 0).
Proof using size_ok.
  intros Hq. pose proof (count_empty q Hq) as He. unfold Queue.is_empty.
  destruct (Z.eqb_spec (read_index q) (write_index q));
    destruct (Z.eqb_spec (count q) 0); tauto.
Qed.

Lemma contents_nil_count (q : Q) : contents q = [] <-> count q = 0.
Proof using size_ok.
  rewrite <- length_zero_iff_nil. pose proof (contents_length q). lia.
Qed.

Lemma run_count (ops : list op) : forall q : Q,
  wf q ->
  count (snd (run q ops))
  = count q + Z.of_nat (pushes_ok (fst (run q ops)))
    - Z.of_nat (pops_ok (fst (run q ops))).
Proof using size_ok.
  induction ops as [| [v | element] ops IH]; intros q Hq; simpl.
  - lia.
  - pose proof (wf_push q v Hq) as Hq1.
    pose proof (count_after_push q v Hq) as Hcnt.
    pose proof (push_fail q v Hq) as Hfail.
    destruct (push q v) as [ok q1]. simpl in *.
    specialize (IH q1 Hq1). destruct (run q1 ops) as [evs q2]. simpl in *.
    destruct ok; simpl.
    + rewrite IH, Hcnt by reflexivity. lia.
    + specialize (Hfail eq_refl). inversion Hfail; subst q1. exact IH.
  - pose proof (wf_pop q element Hq) as Hq1.
    pose proof (count_after_pop q element Hq) as Hcnt.
    pose proof (pop_fail q element Hq) as Hfail.
    destruct (pop q element) as [[ok element'] q1]. simpl in *.
    specialize (IH q1 Hq1). destruct (run q1 ops) as [evs q2]. simpl in *.
    destruct ok; simpl.
    + rewrite IH, Hcnt by reflexivity. lia.
    + specialize (Hfail eq_refl). inversion Hfail; subst q1. exact IH.
Qed.

Lemma fifo_drain (d : _T) (l : list _T) :
  fifo_run _size l (replicate (length l) (Pop (Some d)))
  = (map (fun x => EvPop true (Some x)) l, []).
Proof.
  induction l as [| x l IH]; simpl; [reflexivity |]. now rewrite IH.
Qed.

Lemma popped_all (l : list _T) :
  popped (map (fun x => EvPop true (Some x)) l) = l.
Proof. induction l as [| x l IH]; simpl; [reflexivity | now rewrite IH]. Qed.

Lemma push_keeps_front_aux (q : Q) (v : _T) :
  wf q -> fst (push q v) = true ->
  slot (snd (push q v)) (read_index (snd (push q v)))
  = if is_empty q then v else slot q (read_index q).
Proof using size_ok.
  intros Hq Hok. rewrite (push_success q v Hq Hok).
  destruct Hq as (Hr & Hw & Hl).
  unfold Queue.slot, Queue.is_empty; simpl.
  destruct (Z.eqb_spec (read_index q) (write_index q)) as [E | E].
  - rewrite E, list_lookup_insert_eq by lia. reflexivity.
  - rewrite list_lookup_insert_ne by lia. reflexivity.
Qed.

(** X1. Whatever calls are made, the indices stay inside the array: a run
    of pushes and pops started in a state with both indices in [0, _size)
    and [_size] slots, the fresh queue in particular, ends in such a state. *)
Theorem run_keeps_indices_in_bounds (ops : list op) :
  wf (snd (run fresh ops)) /\
  (forall q : Q, wf q -> wf (snd (run q ops))).
Proof using size_ok.
  split; [apply run_wf, wf_fresh | apply run_wf].
Qed.

(** X2. [is_empty] is true exactly when no element is queued, and exactly
    then [pop] returns [false]; a push onto an empty queue always succeeds. *)
Theorem is_empty_means_nothing_queued (q : Q) :
  wf q ->
  (is_empty q = true <-> contents q = []) /\
  (forall element, fst (fst (pop q element)) = negb (is_empty q)) /\
  (forall v, is_empty q = true -> fst (push q v) = true).
Proof using size_ok.
  intros Hq. rewrite (is_empty_count q Hq), contents_nil_count.
  split; [apply Z.eqb_eq | split].
  - intros element. apply pop_result, Hq.
  - intros v He. apply Z.eqb_eq in He.
    rewrite (push_result q v Hq). apply Z.ltb_lt. lia.
Qed.

(** X3. After any run from the fresh queue the number of queued elements is
    the number of successful pushes minus the number of successful pops, so
    [is_empty] is true exactly when the two are equal; the pushes are never
    behind the pops and never more than [_size - 1] ahead. *)
Theorem is_empty_counts_calls (ops : list op) :
  count (snd (run fresh ops))
  = Z.of_nat (pushes_ok (fst (run fresh ops)))
    - Z.of_nat (pops_ok (fst (run fresh ops))) /\
  (is_empty (snd (run fresh ops)) = true
   <-> pushes_ok (fst (run fresh ops)) = pops_ok (fst (run fresh ops))) /\
  (pops_ok (fst (run fresh ops)) <= pushes_ok (fst (run fresh ops))
   <= pops_ok (fst (run fresh ops)) + Z.to_nat (_size - 1))%nat.
Proof using size_ok.
  pose proof (run_count ops fresh wf_fresh) as Hc.
  pose proof (run_wf ops fresh wf_fresh) as Hq.
  pose proof (count_range (snd (run fresh ops))) as Hr.
  assert (H0 : count fresh = 0).
  { unfold Queue.count, Queue.fresh; cbn [read_index write_index].
    rewrite Z.sub_diag. apply Z.mod_0_l. lia. }
  rewrite H0 in Hc. rewrite (is_empty_count _ Hq), Z.eqb_eq.
  repeat split; lia.
Qed.

(** X4. On a non-empty queue [front] is the oldest queued element, the one
    the next [pop] hands out, and what remains queued after that pop is the
    rest. *)
Theorem front_is_oldest (q : Q) (old : _T) :
  wf q -> is_empty q = false ->
  contents q = front q :: contents (snd (pop q (Some old))) /\
  fst (pop q (Some old)) = (true, Some (front q)).
Proof using size_ok.
  intros Hq Hne.
  assert (Hok : fst (fst (pop q (Some old))) = true)
    by (rewrite (pop_result q _ Hq), <- (is_empty_count q Hq), Hne;
        reflexivity).
  split.
  - apply (contents_before_pop q (Some old) Hq Hok).
  - now rewrite (pop_success q (Some old) Hq Hok).
Qed.

(** X5. A successful push does not disturb the front: [front] afterwards is
    the pushed value when the queue was empty and the previous front
    otherwise. *)
Theorem push_keeps_front (q : Q) (v : _T) :
  wf q -> fst (push q v) = true ->
  front (snd (push q v)) = if is_empty q then v else front q.
Proof using size_ok.
  intros Hq Hok. unfold Queue.front. now apply push_keeps_front_aux.
Qed.

(** X6. Push then pop on an empty queue is a round trip: the push succeeds,
    the queue is then not empty, the pop hands out the pushed value, and the
    queue is empty again. *)
Theorem push_pop_on_empty (q : Q) (v old : _T) :
  wf q -> is_empty q = true ->
  fst (push q v) = true /\
  is_empty (snd (push q v)) = false /\
  fst (pop (snd (push q v)) (Some old)) = (true, Some v) /\
  is_empty (snd (pop (snd (push q v)) (Some old))) = true.
Proof using size_ok.
  intros Hq He.
  pose proof (wf_push q v Hq) as Hq1.
  assert (H0 : count q = 0)
    by (rewrite (is_empty_count q Hq) in He; now apply Z.eqb_eq).
  assert (Hok : fst (push q v) = true)
    by (rewrite (push_result q v Hq); apply Z.ltb_lt; lia).
  pose proof (count_after_push q v Hq Hok) as H1.
  pose proof (push_keeps_front_aux q v Hq Hok) as Hf.
  assert (Hne : is_empty (snd (push q v)) = false).
  { rewrite (is_empty_count _ Hq1), H1, H0. reflexivity. }
  assert (Hpop : fst (fst (pop (snd (push q v)) (Some old))) = true).
  { rewrite (pop_result _ _ Hq1), H1, H0. reflexivity. }
  pose proof (count_after_pop _ _ Hq1 Hpop) as H2.
  repeat split; try assumption.
  - rewrite (pop_success _ _ Hq1 Hpop). cbn [fst]. rewrite Hf, He.
    reflexivity.
  - rewrite (is_empty_count _ (wf_pop _ _ Hq1)), H2, H1, H0. reflexivity.
Qed.

(** X7. A full queue recovers after one pop: when [push] returns [false],
    the next [pop] succeeds, and a push right after that pop succeeds. *)
Theorem full_queue_recovers (q : Q) (v v' : _T) (element : option _T) :
  wf q -> fst (push q v) = false ->
  fst (fst (pop q element)) = true /\
  fst (push (snd (pop q element)) v') = true.
Proof using size_ok.
  intros Hq Hfull. rewrite (push_result q v Hq) in Hfull.
  apply Z.ltb_ge in Hfull. pose proof (count_range q) as Hc.
  assert (Hpop : fst (fst (pop q element)) = true).
  { rewrite (pop_result q element Hq).
    destruct (Z.eqb_spec (count q) 0); [lia | reflexivity]. }
  split; [exact Hpop |].
  rewrite (push_result _ v' (wf_pop q element Hq)).
  rewrite (count_after_pop q element Hq Hpop). apply Z.ltb_lt. lia.
Qed.

(** X8. Draining: popping as many times as there are queued elements hands
    them out oldest first and leaves the queue empty, and one more pop
    returns [false] and changes nothing. *)
Theorem drain_returns_contents (q : Q) (d : _T) :
  wf q ->
  let pops := replicate (length (contents q)) (Pop (Some d)) in
  popped (fst (run q pops)) = contents q /\
  is_empty (snd (run q pops)) = true /\
  pop (snd (run q pops)) (Some d) = (false, Some d, snd (run q pops)).
Proof using size_ok.
  intros Hq pops.
  destruct (run_simulates pops q Hq) as [Hev Hst].
  unfold pops in Hev, Hst. rewrite fifo_drain in Hev, Hst. simpl in Hev, Hst.
  pose proof (run_wf pops q Hq) as Hq'.
  assert (He : is_empty (snd (run q pops)) = true).
  { rewrite (is_empty_count _ Hq'). apply Z.eqb_eq.
    now apply contents_nil_count. }
  split; [| split].
  - unfold pops. rewrite Hev. apply popped_all.
  - exact He.
  - apply pop_fail; [exact Hq' |].
    rewrite (pop_result _ _ Hq'), <- (is_empty_count _ Hq'), He.
    reflexivity.
Qed.

(** X9. The ring behaves as the bounded list queue from every state with
    indices in bounds, not only from the fresh one: started on the queued
    elements of [q], the list queue answers every call of a run as the ring
    started in [q] does and ends with the same queued elements. *)
Theorem run_refines_from_any_state (q : Q) (ops : list op) :
  wf q ->
  fst (run q ops) = fst (fifo_run _size (contents q) ops) /\
  contents (snd (run q ops)) = snd (fifo_run _size (contents q) ops) /\
  Z.of_nat (length (contents (snd (run q ops)))) <= _size - 1.
Proof using size_ok.
  intros Hq. destruct (run_simulates ops q Hq) as [Hev Hst].
  split; [exact Hev | split; [exact Hst |]].
  rewrite contents_length. pose proof (count_range (snd (run q ops))). lia.
Qed.

End QueueProperties.

(** The wrap-around scenario on a queue of four slots. *)
Lemma push_full_or_store_witness :
  2 < 4 <= SIZE_MAX /\
  Queue.wf 4 {| Queue.elements := [1; 2; 3; 4];
                Queue.read_index := 1;
                Queue.write_index := 3 |} /\
  Queue.push 4 {| Queue.elements := [1; 2; 3; 4];
                  Queue.read_index := 1;
                  Queue.write_index := 3 |} 5
  = (true, {| Queue.elements := [1; 2; 3; 5];
              Queue.read_index := 1;
              Queue.write_index := 0 |}).
Proof.
  assert (Hsize : 2 < 4 <= SIZE_MAX) by (unfold SIZE_MAX; lia).
  assert (Hwf : Queue.wf 4 {| Queue.elements := [1; 2; 3; 4];
                              Queue.read_index := 1;
                              Queue.write_index := 3 |})
    by (unfold Queue.wf; simpl; lia).
  split; [exact Hsize | split; [exact Hwf |]].
  apply (push_full_or_store 0 4 Hsize _ 5 Hwf). discriminate.
Defined.

Lemma pop_empty_or_advance_witness :
  2 < 4 <= SIZE_MAX /\
  Queue.wf 4 {| Queue.elements := [1; 2; 3; 4];
                Queue.read_index := 3;
                Queue.write_index := 1 |} /\
  Queue.pop 0 4 {| Queue.elements := [1; 2; 3; 4];
                   Queue.read_index := 3;
                   Queue.write_index := 1 |} (Some 7)
  = (true, Some 4, {| Queue.elements := [1; 2; 3; 4];
                      Queue.read_index := 0;
                      Queue.write_index := 1 |}).
Proof.
  assert (Hsize : 2 < 4 <= SIZE_MAX) by (unfold SIZE_MAX; lia).
  assert (Hwf : Queue.wf 4 {| Queue.elements := [1; 2; 3; 4];
                              Queue.read_index := 3;
                              Queue.write_index := 1 |})
    by (unfold Queue.wf; simpl; lia).
  split; [exact Hsize | split; [exact Hwf |]].
  apply (pop_empty_or_advance 0 4 Hsize _ (Some 7) Hwf). discriminate.
Defined.

Lemma usable_capacity_witness :
  2 < 4 <= SIZE_MAX /\
  fst (Queue.push_all 4 (Queue.fresh 0 4) [10; 20; 30; 40])
  = [true; true; true; false].
Proof.
  assert (Hsize : 2 < 4 <= SIZE_MAX) by (unfold SIZE_MAX; lia).
  split; [exact Hsize |].
  apply (proj2 (proj2 (usable_capacity 0 4 Hsize)) [10; 20; 30; 40]).
  reflexivity.
Defined.

Lemma spsc_fifo_refinement_witness :
  2 < 4 <= SIZE_MAX /\
  Queue.accepted
    (fst (Queue.run 0 4 (Queue.fresh 0 4)
            [Queue.Push 1; Queue.Push 2; Queue.Push 3; Queue.Push 4;
             Queue.Pop (Some 0); Queue.Push 4; Queue.Pop (Some 0);
             Queue.Pop (Some 0); Queue.Pop (Some 0); Queue.Pop (Some 0)]))
  = [1; 2; 3; 4] ++ [].
Proof.
  assert (Hsize : 2 < 4 <= SIZE_MAX) by (unfold SIZE_MAX; lia).
  split; [exact Hsize |].
  apply (proj2 (proj2 (spsc_fifo_refinement 0 4 Hsize
    [Queue.Push 1; Queue.Push 2; Queue.Push 3; Queue.Push 4;
     Queue.Pop (Some 0); Queue.Push 4; Queue.Pop (Some 0);
     Queue.Pop (Some 0); Queue.Pop (Some 0); Queue.Pop (Some 0)]))).
  unfold Queue.pops_want_value. repeat constructor.
Defined.

(** ** The envelope *)

Section MessageProperties.
Import Msg.

Lemma memcpy_whole (dst src : list Byte.byte) :
  take (length src) (memcpy dst src (length src)) = src.
Proof.
  unfold memcpy. rewrite firstn_all. apply take_app_length.
Qed.

(** The byte-level copy refuses exactly a null pointer or a size above the
    maximum, and otherwise copies and records the size. *)
Lemma set_payload_bytes_spec (m : Message) (data : option (list Byte.byte))
    (size : Z) :
  (fst (set_payload_bytes m data size) = false
   <-> data = None \/ MAX_MESSAGE_SIZE < size) /\
  (data = None \/ MAX_MESSAGE_SIZE < size ->
   set_payload_bytes m data size = (false, m)) /\
  (forall src, data = Some src -> size <= MAX_MESSAGE_SIZE ->
   set_payload_bytes m data size =
     (true,
      {| metadata := metadata m;
         payload := memcpy (payload m) src (Z.to_nat size);
         payload_size := size |})).
Proof.
  unfold set_payload_bytes.
  destruct data as [src |]; [destruct (Z.ltb_spec MAX_MESSAGE_SIZE size) |];
    simpl; (split; [| split]).
  - tauto.
  - reflexivity.
  - intros; lia.
  - split; [discriminate | intros [Hnull | Hbig]; [discriminate | lia]].
  - intros [Hnull | Hbig]; [discriminate | lia].
  - intros src' Hsrc _. now inversion Hsrc.
  - tauto.
  - reflexivity.
  - discriminate.
Qed.

Lemma set_payload_bytes_size (m : Message) (data : option (list Byte.byte))
    (size : Z) :
  0 <= payload_size m <= MAX_MESSAGE_SIZE -> 0 <= size ->
  0 <= payload_size (snd (set_payload_bytes m data size)) <= MAX_MESSAGE_SIZE.
Proof.
  intros Hm Hs. unfold set_payload_bytes.
  destruct data; [| exact Hm].
  destruct (Z.ltb_spec MAX_MESSAGE_SIZE size); simpl; lia.
Qed.

Lemma set_payload_size (m : Message) (data : argument) :
  0 <= payload_size m <= MAX_MESSAGE_SIZE ->
  0 <= payload_size (snd (set_payload m data)) <= MAX_MESSAGE_SIZE.
Proof.
  intros Hm. unfold set_payload.
  destruct (is_pointer_v data && arg_null data); [exact Hm |].
  apply set_payload_bytes_size; [exact Hm | unfold sizeof; lia].
Qed.

Lemma swap_unfold (lhs rhs : Message) :
  swap lhs rhs =
    ({| metadata := metadata lhs;
        payload := payload rhs;
        payload_size := payload_size rhs |},
     {| metadata := metadata rhs;
        payload := payload lhs;
        payload_size := payload_size lhs |}).
Proof. reflexivity. Qed.

(** When the argument is not a null pointer the template copies its bytes. *)
Lemma set_payload_accepts (m : Message) (data : argument) :
  sizeof data <= MAX_MESSAGE_SIZE ->
  is_pointer_v data && arg_null data = false ->
  set_payload m data =
    (true,
     {| metadata := metadata m;
        payload := memcpy (payload m) (arg_bytes data)
                          (length (arg_bytes data));
        payload_size := sizeof data |}).
Proof.
  intros Hsz Hnn. unfold set_payload. rewrite Hnn.
  destruct (set_payload_bytes_spec m (Some (arg_bytes data)) (sizeof data))
    as (_ & _ & Hcopy).
  rewrite (Hcopy _ eq_refl Hsz). unfold sizeof. now rewrite Nat2Z.id.
Qed.

(** C5 (as the code behaves). With envelope A tagged VOLUME and envelope B
    tagged PAUSE, [swap A B] exchanges the payload bytes and the occupied
    sizes, but A still reports VOLUME and B still reports PAUSE: the tags are
    not exchanged. *)
Lemma swap_keeps_tags :
  let A := {| metadata := MessageMetadata_of VOLUME;
              payload := memcpy zeroed [Byte.x2a] 1;
              payload_size := 1 |} in
  let B := {| metadata := MessageMetadata_of PAUSE;
              payload := memcpy zeroed [Byte.x01; Byte.x02] 2;
              payload_size := 2 |} in
  get_type (get_metadata (fst (swap A B))) = VOLUME /\
  get_type (get_metadata (snd (swap A B))) = PAUSE /\
  get_type (get_metadata (fst (swap A B))) <> get_type (get_metadata B) /\
  Msg.payload (fst (swap A B)) = Msg.payload B /\
  get_payload_size (fst (swap A B)) = get_payload_size B /\
  Msg.payload (snd (swap A B)) = Msg.payload A /\
  get_payload_size (snd (swap A B)) = get_payload_size A.
Proof. cbv zeta. rewrite swap_unfold. simpl. repeat split. discriminate. Qed.

(** C6 (as the code behaves). Constructing an envelope from a null [int*]
    passed as an rvalue returns normally, with the eight bytes of the pointer
    as payload; [set_payload] refuses the same argument, and accepts a null
    pointer passed as an lvalue. *)
Lemma ctor_null_pointer_returns :
  let null_rvalue := {| arg_pointer := true; arg_category := rvalue;
                        arg_null := true;
                        arg_bytes := replicate 8 Byte.x00 |} in
  let null_lvalue := {| arg_pointer := true; arg_category := lvalue;
                        arg_null := true;
                        arg_bytes := replicate 8 Byte.x00 |} in
  Message_ctor (MessageMetadata_of VOLUME) null_rvalue
  = returned {| metadata := MessageMetadata_of VOLUME;
                payload := zeroed;
                payload_size := 8 |} /\
  set_payload Message_default null_rvalue = (false, Message_default) /\
  set_payload Message_default null_lvalue
  = (true, {| metadata := MessageMetadata_default;
              payload := zeroed;
              payload_size := 8 |}).
Proof. cbv zeta. repeat split; vm_compute; reflexivity. Qed.

(** C7 (as stated) fails: a null pointer is a trivially copyable value of
    eight bytes, and [set_payload] refuses it, leaving the previous payload
    and size in place. *)
Lemma round_trip_fails_on_null_pointer :
  let P := {| arg_pointer := true; arg_category := rvalue;
              arg_null := true;
              arg_bytes := replicate 8 Byte.x00 |} in
  let m := {| metadata := MessageMetadata_of VOLUME;
              payload := memcpy zeroed [Byte.x2a] 1;
              payload_size := 1 |} in
  sizeof P <= MAX_MESSAGE_SIZE /\
  fst (set_payload m P) = false /\
  get_payload (length (arg_bytes P)) (snd (set_payload m P)) <> arg_bytes P /\
  get_payload_size (snd (set_payload m P)) <> sizeof P.
Proof. cbv zeta. repeat split; vm_compute; congruence. Qed.

(** C7 (amended). For every trivially copyable value [P] of at most 512
    bytes that is not a null pointer, the envelope constructed with tag
    VOLUME and payload [P], and any envelope after [set_payload P], hold the
    bytes of [P] at the start of the buffer ([get_payload<T>()] is
    bit-identical to [P]) and report [sizeof(P)] as payload size. *)
Theorem payload_round_trip (P : argument) :
  sizeof P <= MAX_MESSAGE_SIZE ->
  arg_pointer P && arg_null P = false ->
  (exists m,
      Message_ctor (MessageMetadata_of VOLUME) P = returned m /\
      get_type (get_metadata m) = VOLUME /\
      get_payload (length (arg_bytes P)) m = arg_bytes P /\
      get_payload_size m = sizeof P) /\
  (forall m0,
      fst (set_payload m0 P) = true /\
      get_payload (length (arg_bytes P)) (snd (set_payload m0 P))
      = arg_bytes P /\
      get_payload_size (snd (set_payload m0 P)) = sizeof P).
Proof.
  intros Hsz Hnn. split.
  - unfold Message_ctor.
    rewrite (set_payload_accepts _ (named P)) by (assumption || reflexivity).
    eexists. split.
    + destruct (is_pointer_v P); reflexivity.
    + unfold get_payload, get_payload_size; simpl.
      repeat split. apply memcpy_whole.
  - intros m0.
    assert (Hnn' : is_pointer_v P && arg_null P = false).
    { unfold is_pointer_v. destruct (arg_category P); [reflexivity | exact Hnn]. }
    rewrite (set_payload_accepts m0 P Hsz Hnn').
    unfold get_payload, get_payload_size; simpl.
    repeat split. apply memcpy_whole.
Qed.

(** C8. Every envelope produced by the default constructor, the tagged
    constructor, or any sequence of [set_payload], [set_metadata] and [swap]
    calls has an occupied payload size of at most [MAX_MESSAGE_SIZE] = 512. *)
Theorem payload_size_bounded (m : Message) :
  reachable m -> 0 <= get_payload_size m <= MAX_MESSAGE_SIZE.
Proof.
  unfold get_payload_size.
  induction 1 as [| md data m Hsz Hctor | m data Hm IH Hsz | m md Hm IH
                 | lhs rhs Hl IHl Hr IHr | lhs rhs Hl IHl Hr IHr].
  - simpl. unfold MAX_MESSAGE_SIZE. lia.
  - unfold Message_ctor in Hctor.
    pose proof (set_payload_size
                  {| metadata := md; payload := zeroed; payload_size := 0 |}
                  (named data)) as Hset.
    destruct (set_payload _ (named data)) as [ok this]. simpl in Hset.
    assert (Hthis : 0 <= payload_size this <= MAX_MESSAGE_SIZE)
      by (apply Hset; unfold MAX_MESSAGE_SIZE; lia).
    destruct (is_pointer_v data); [destruct (negb ok) |];
      congruence.
  - apply set_payload_size. exact IH.
  - exact IH.
  - rewrite swap_unfold. exact IHr.
  - rewrite swap_unfold. exact IHl.
Qed.

(** C10. [set_metadata] changes only the type tag: payload bytes and occupied
    size are as before; and every [set_payload] call, template or byte-level,
    successful or not, leaves the type tag as it was. *)
Theorem metadata_payload_frame (m : Message) :
  (forall md,
      get_metadata (set_metadata m md) = md /\
      Msg.payload (set_metadata m md) = Msg.payload m /\
      get_payload_size (set_metadata m md) = get_payload_size m) /\
  (forall data, get_metadata (snd (set_payload m data)) = get_metadata m) /\
  (forall data size,
      get_metadata (snd (set_payload_bytes m data size)) = get_metadata m).
Proof.
  assert (Hbytes : forall data size,
             metadata (snd (set_payload_bytes m data size)) = metadata m).
  { intros data size. unfold set_payload_bytes.
    destruct data; [destruct (MAX_MESSAGE_SIZE <? size) |]; reflexivity. }
  split; [| split].
  - intros md. repeat split.
  - intros data. unfold get_metadata, set_payload.
    destruct (is_pointer_v data && arg_null data); [reflexivity | apply Hbytes].
  - exact Hbytes.
Qed.

(** *** Further properties of the envelope *)

Lemma memcpy_length (dst src : list Byte.byte) :
  (length src <= length dst)%nat ->
  length (memcpy dst src (length src)) = length dst.
Proof.
  intros Hle. unfold memcpy.
  rewrite length_app, firstn_all, length_drop. lia.
Qed.

Lemma memcpy_tail (dst src : list Byte.byte) :
  (length src <= length dst)%nat ->
  drop (length src) (memcpy dst src (length src)) = drop (length src) dst.
Proof.
  intros Hle. unfold memcpy. rewrite firstn_all. apply drop_app_length.
Qed.

Lemma zeroed_length : Z.of_nat (length zeroed) = MAX_MESSAGE_SIZE.
Proof. unfold zeroed. rewrite length_replicate. reflexivity. Qed.

Lemma set_payload_refuses (m : Message) (data : argument) :
  is_pointer_v data && arg_null data = true ->
  set_payload m data = (false, m).
Proof. intros Hnull. unfold set_payload. now rewrite Hnull. Qed.

Lemma set_payload_buffer_length (m : Message) (data : argument) :
  sizeof data <= MAX_MESSAGE_SIZE ->
  Z.of_nat (length (payload m)) = MAX_MESSAGE_SIZE ->
  Z.of_nat (length (payload (snd (set_payload m data)))) = MAX_MESSAGE_SIZE.
Proof.
  intros Hsz Hlen.
  destruct (is_pointer_v data && arg_null data) eqn:Hnull.
  - now rewrite set_payload_refuses.
  - rewrite set_payload_accepts by assumption. simpl.
    rewrite memcpy_length; unfold sizeof in Hsz; lia.
Qed.

(** X10. The byte-level [set_payload] returns [false] and changes nothing
    exactly when the pointer is null or the size exceeds [MAX_MESSAGE_SIZE];
    otherwise it returns [true], the occupied size becomes [size], and the
    first [size] bytes of the buffer are the first [size] bytes found at the
    pointer. *)
Theorem byte_level_set_payload (m : Message)
    (data : option (list Byte.byte)) (size : Z) :
  (set_payload_bytes m data size = (false, m)
   <-> data = None \/ MAX_MESSAGE_SIZE < size) /\
  (forall src,
      data = Some src -> 0 <= size <= MAX_MESSAGE_SIZE ->
      (Z.to_nat size <= length src)%nat ->
      fst (set_payload_bytes m data size) = true /\
      get_payload_size (snd (set_payload_bytes m data size)) = size /\
      take (Z.to_nat size) (Msg.payload (snd (set_payload_bytes m data size)))
      = take (Z.to_nat size) src /\
      get_metadata (snd (set_payload_bytes m data size)) = get_metadata m).
Proof.
  destruct (set_payload_bytes_spec m data size) as (Hiff & Hfail & Hcopy).
  split.
  - split.
    + intros Heq. apply Hiff. now rewrite Heq.
    + exact Hfail.
  - intros src Hsrc Hsize Hlen. rewrite (Hcopy src Hsrc) by lia.
    unfold get_payload_size, get_metadata, memcpy; simpl.
    repeat split.
    rewrite take_app_le by (rewrite length_take; lia).
    rewrite take_take. f_equal. lia.
Qed.

(** X11. The template [set_payload] on an argument of at most 512 bytes
    returns [false] exactly when the argument is a null pointer passed as an
    rvalue, and then the envelope is unchanged. *)
Theorem set_payload_fails_only_on_null_rvalue (m : Message)
    (data : argument) :
  sizeof data <= MAX_MESSAGE_SIZE ->
  (fst (set_payload m data) = false
   <-> arg_category data = rvalue /\ arg_pointer data = true
       /\ arg_null data = true) /\
  (fst (set_payload m data) = false -> snd (set_payload m data) = m).
Proof.
  intros Hsz.
  destruct (is_pointer_v data && arg_null data) eqn:Hnull.
  - rewrite set_payload_refuses by assumption. simpl.
    split; [| reflexivity]. split; [intros _ | reflexivity].
    unfold is_pointer_v in Hnull.
    destruct (arg_category data); [discriminate |].
    apply andb_true_iff in Hnull. tauto.
  - rewrite set_payload_accepts by assumption. simpl.
    split; [| discriminate]. split; [discriminate |].
    intros (Hcat & Hptr & Hn). unfold is_pointer_v in Hnull.
    rewrite Hcat, Hptr, Hn in Hnull. discriminate.
Qed.

(** X12. The tagged constructor returns normally for every argument of at
    most 512 bytes, null pointers included: the envelope carries the given
    tag, the bytes of the argument at the start of a zeroed buffer, and the
    argument's size. *)
Theorem ctor_always_returns (md : MessageMetadata) (data : argument) :
  sizeof data <= MAX_MESSAGE_SIZE ->
  Message_ctor md data
  = returned {| metadata := md;
                payload := arg_bytes data
                           ++ drop (length (arg_bytes data)) zeroed;
                payload_size := sizeof data |}.
Proof.
  intros Hsz. unfold Message_ctor.
  rewrite (set_payload_accepts _ (named data)) by (assumption || reflexivity).
  unfold memcpy; simpl. rewrite firstn_all.
  destruct (is_pointer_v data); reflexivity.
Qed.

(** X13. The buffer keeps its 512 bytes: every envelope obtained from the
    constructors, [set_payload], [set_metadata] and [swap] has a payload
    buffer of exactly [MAX_MESSAGE_SIZE] bytes. *)
Theorem payload_buffer_length (m : Message) :
  reachable m -> Z.of_nat (length (Msg.payload m)) = MAX_MESSAGE_SIZE.
Proof.
  induction 1 as [| md data m Hsz Hctor | m data Hm IH Hsz | m md Hm IH
                 | lhs rhs Hl IHl Hr IHr | lhs rhs Hl IHl Hr IHr].
  - apply zeroed_length.
  - unfold Message_ctor in Hctor.
    pose proof (set_payload_buffer_length
                  {| metadata := md; payload := zeroed; payload_size := 0 |}
                  (named data) Hsz zeroed_length) as Hset.
    destruct (set_payload _ (named data)) as [ok this]. simpl in Hset.
    destruct (is_pointer_v data); [destruct (negb ok) |]; congruence.
  - now apply set_payload_buffer_length.
  - exact IH.
  - rewrite swap_unfold. exact IHr.
  - rewrite swap_unfold. exact IHl.
Qed.

(** X14. A successful [set_payload] overwrites only the first [sizeof]
    bytes: the bytes of the buffer beyond the new occupied size are the ones
    that were there before (they are not cleared). *)
Theorem set_payload_keeps_tail (m : Message) (data : argument) :
  Z.of_nat (length (Msg.payload m)) = MAX_MESSAGE_SIZE ->
  sizeof data <= MAX_MESSAGE_SIZE ->
  fst (set_payload m data) = true ->
  drop (length (arg_bytes data)) (Msg.payload (snd (set_payload m data)))
  = drop (length (arg_bytes data)) (Msg.payload m) /\
  take (length (arg_bytes data)) (Msg.payload (snd (set_payload m data)))
  = arg_bytes data.
Proof.
  intros Hfit Hsz Hok.
  destruct (is_pointer_v data && arg_null data) eqn:Hnull.
  - rewrite set_payload_refuses in Hok by assumption. discriminate.
  - rewrite set_payload_accepts by assumption. simpl. split.
    + apply memcpy_tail. unfold sizeof in Hsz. lia.
    + apply memcpy_whole.
Qed.

(** X15. Swapping twice restores both envelopes. *)
Theorem swap_twice (lhs rhs : Message) :
  swap (fst (swap lhs rhs)) (snd (swap lhs rhs)) = (lhs, rhs).
Proof. destruct lhs, rhs. reflexivity. Qed.

End MessageProperties.

Lemma payload_round_trip_witness :
  Msg.sizeof {| Msg.arg_pointer := false; Msg.arg_category := Msg.lvalue;
                Msg.arg_null := false;
                Msg.arg_bytes := [Byte.x00; Byte.x00; Byte.x80; Byte.x3f] |}
  <= Msg.MAX_MESSAGE_SIZE /\
  Msg.get_payload 4
    (snd (Msg.set_payload Msg.Message_default
            {| Msg.arg_pointer := false; Msg.arg_category := Msg.lvalue;
               Msg.arg_null := false;
               Msg.arg_bytes := [Byte.x00; Byte.x00; Byte.x80; Byte.x3f] |}))
  = [Byte.x00; Byte.x00; Byte.x80; Byte.x3f].
Proof.
  assert (Hsz : Msg.sizeof
                  {| Msg.arg_pointer := false; Msg.arg_category := Msg.lvalue;
                     Msg.arg_null := false;
                     Msg.arg_bytes := [Byte.x00; Byte.x00; Byte.x80; Byte.x3f] |}
                <= Msg.MAX_MESSAGE_SIZE) by (vm_compute; discriminate).
  split; [exact Hsz |].
  apply (proj2 (payload_round_trip _ Hsz eq_refl) Msg.Message_default).
Defined.

Lemma payload_size_bounded_witness :
  Msg.reachable
    (snd (Msg.set_payload Msg.Message_default
            {| Msg.arg_pointer := false; Msg.arg_category := Msg.lvalue;
               Msg.arg_null := false;
               Msg.arg_bytes := [Byte.x00; Byte.x00; Byte.x80; Byte.x3f] |})) /\
  Msg.get_payload_size
    (snd (Msg.set_payload Msg.Message_default
            {| Msg.arg_pointer := false; Msg.arg_category := Msg.lvalue;
               Msg.arg_null := false;
               Msg.arg_bytes := [Byte.x00; Byte.x00; Byte.x80; Byte.x3f] |}))
  <= 512.
Proof.
  assert (Hreach : Msg.reachable
    (snd (Msg.set_payload Msg.Message_default
            {| Msg.arg_pointer := false; Msg.arg_category := Msg.lvalue;
               Msg.arg_null := false;
               Msg.arg_bytes := [Byte.x00; Byte.x00; Byte.x80; Byte.x3f] |}))).
  { apply Msg.reach_set_payload; [apply Msg.reach_default |].
    vm_compute; discriminate. }
  split; [exact Hreach |].
  apply (payload_size_bounded _ Hreach).
Defined.

(** *** Instances of the further properties *)

Lemma run_keeps_indices_in_bounds_witness :
  2 < 4 <= SIZE_MAX /\
  Queue.wf 4
    (snd (Queue.run 0 4 (Queue.fresh 0 4)
            [Queue.Push 1; Queue.Push 2; Queue.Push 3; Queue.Pop None;
             Queue.Push 4; Queue.Push 5])).
Proof.
  assert (Hsize : 2 < 4 <= SIZE_MAX) by (unfold SIZE_MAX; lia).
  split; [exact Hsize |].
  apply (proj1 (run_keeps_indices_in_bounds 0 4 Hsize _)).
Defined.

Lemma is_empty_means_nothing_queued_witness :
  2 < 4 <= SIZE_MAX /\
  Queue.wf 4 {| Queue.elements := [1; 2; 3; 4];
                Queue.read_index := 2;
                Queue.write_index := 2 |} /\
  fst (Queue.push 4 {| Queue.elements := [1; 2; 3; 4];
                       Queue.read_index := 2;
                       Queue.write_index := 2 |} 9) = true.
Proof.
  assert (Hsize : 2 < 4 <= SIZE_MAX) by (unfold SIZE_MAX; lia).
  assert (Hwf : Queue.wf 4 {| Queue.elements := [1; 2; 3; 4];
                              Queue.read_index := 2;
                              Queue.write_index := 2 |})
    by (unfold Queue.wf; simpl; lia).
  split; [exact Hsize | split; [exact Hwf |]].
  apply (proj2 (proj2 (is_empty_means_nothing_queued 0 4 Hsize _ Hwf)) 9).
  reflexivity.
Defined.

Lemma is_empty_counts_calls_witness :
  2 < 4 <= SIZE_MAX /\
  Queue.count 4
    (snd (Queue.run 0 4 (Queue.fresh 0 4)
            [Queue.Push 1; Queue.Pop None; Queue.Pop None; Queue.Push 2;
             Queue.Push 3]))
  = Z.of_nat 3 - Z.of_nat 1.
Proof.
  assert (Hsize : 2 < 4 <= SIZE_MAX) by (unfold SIZE_MAX; lia).
  split; [exact Hsize |].
  apply (proj1 (is_empty_counts_calls 0 4 Hsize
    [Queue.Push 1; Queue.Pop None; Queue.Pop None; Queue.Push 2;
     Queue.Push 3])).
Defined.

Lemma front_is_oldest_witness :
  2 < 4 <= SIZE_MAX /\
  Queue.wf 4 {| Queue.elements := [1; 2; 3; 4];
                Queue.read_index := 3;
                Queue.write_index := 1 |} /\
  fst (Queue.pop 0 4 {| Queue.elements := [1; 2; 3; 4];
                        Queue.read_index := 3;
                        Queue.write_index := 1 |} (Some 7))
  = (true, Some 4).
Proof.
  assert (Hsize : 2 < 4 <= SIZE_MAX) by (unfold SIZE_MAX; lia).
  assert (Hwf : Queue.wf 4 {| Queue.elements := [1; 2; 3; 4];
                              Queue.read_index := 3;
                              Queue.write_index := 1 |})
    by (unfold Queue.wf; simpl; lia).
  split; [exact Hsize | split; [exact Hwf |]].
  apply (proj2 (front_is_oldest 0 4 Hsize _ 7 Hwf eq_refl)).
Defined.

Lemma push_keeps_front_witness :
  2 < 4 <= SIZE_MAX /\
  Queue.wf 4 {| Queue.elements := [1; 2; 3; 4];
                Queue.read_index := 3;
                Queue.write_index := 1 |} /\
  Queue.front 0
    (snd (Queue.push 4 {| Queue.elements := [1; 2; 3; 4];
                          Queue.read_index := 3;
                          Queue.write_index := 1 |} 9))
  = 4.
Proof.
  assert (Hsize : 2 < 4 <= SIZE_MAX) by (unfold SIZE_MAX; lia).
  assert (Hwf : Queue.wf 4 {| Queue.elements := [1; 2; 3; 4];
                              Queue.read_index := 3;
                              Queue.write_index := 1 |})
    by (unfold Queue.wf; simpl; lia).
  split; [exact Hsize | split; [exact Hwf |]].
  apply (push_keeps_front 0 4 Hsize _ 9 Hwf eq_refl).
Defined.

Lemma push_pop_on_empty_witness :
  2 < 4 <= SIZE_MAX /\
  Queue.wf 4 {| Queue.elements := [1; 2; 3; 4];
                Queue.read_index := 3;
                Queue.write_index := 3 |} /\
  fst (Queue.pop 0 4
         (snd (Queue.push 4 {| Queue.elements := [1; 2; 3; 4];
                               Queue.read_index := 3;
                               Queue.write_index := 3 |} 9)) (Some 7))
  = (true, Some 9).
Proof.
  assert (Hsize : 2 < 4 <= SIZE_MAX) by (unfold SIZE_MAX; lia).
  assert (Hwf : Queue.wf 4 {| Queue.elements := [1; 2; 3; 4];
                              Queue.read_index := 3;
                              Queue.write_index := 3 |})
    by (unfold Queue.wf; simpl; lia).
  split; [exact Hsize | split; [exact Hwf |]].
  apply (push_pop_on_empty 0 4 Hsize _ 9 7 Hwf eq_refl).
Defined.

Lemma full_queue_recovers_witness :
  2 < 4 <= SIZE_MAX /\
  Queue.wf 4 {| Queue.elements := [1; 2; 3; 4];
                Queue.read_index := 1;
                Queue.write_index := 0 |} /\
  fst (Queue.push 4
         (snd (Queue.pop 0 4 {| Queue.elements := [1; 2; 3; 4];
                                Queue.read_index := 1;
                                Queue.write_index := 0 |} None)) 8)
  = true.
Proof.
  assert (Hsize : 2 < 4 <= SIZE_MAX) by (unfold SIZE_MAX; lia).
  assert (Hwf : Queue.wf 4 {| Queue.elements := [1; 2; 3; 4];
                              Queue.read_index := 1;
                              Queue.write_index := 0 |})
    by (unfold Queue.wf; simpl; lia).
  split; [exact Hsize | split; [exact Hwf |]].
  apply (proj2 (full_queue_recovers 0 4 Hsize _ 9 8 None Hwf eq_refl)).
Defined.

Lemma drain_returns_contents_witness :
  2 < 4 <= SIZE_MAX /\
  Queue.wf 4 {| Queue.elements := [1; 2; 3; 4];
                Queue.read_index := 3;
                Queue.write_index := 2 |} /\
  Queue.popped
    (fst (Queue.run 0 4 {| Queue.elements := [1; 2; 3; 4];
                           Queue.read_index := 3;
                           Queue.write_index := 2 |}
            (replicate 3 (Queue.Pop (Some 0)))))
  = [4; 1; 2].
Proof.
  assert (Hsize : 2 < 4 <= SIZE_MAX) by (unfold SIZE_MAX; lia).
  assert (Hwf : Queue.wf 4 {| Queue.elements := [1; 2; 3; 4];
                              Queue.read_index := 3;
                              Queue.write_index := 2 |})
    by (unfold Queue.wf; simpl; lia).
  split; [exact Hsize | split; [exact Hwf |]].
  apply (proj1 (drain_returns_contents 0 4 Hsize _ 0 Hwf)).
Defined.

Lemma run_refines_from_any_state_witness :
  2 < 4 <= SIZE_MAX /\
  Queue.wf 4 {| Queue.elements := [1; 2; 3; 4];
                Queue.read_index := 3;
                Queue.write_index := 1 |} /\
  fst (Queue.run 0 4 {| Queue.elements := [1; 2; 3; 4];
                        Queue.read_index := 3;
                        Queue.write_index := 1 |}
         [Queue.Push 5; Queue.Push 6; Queue.Pop (Some 0)])
  = fst (Queue.fifo_run 4 [4; 1]
           [Queue.Push 5; Queue.Push 6; Queue.Pop (Some 0)]).
Proof.
  assert (Hsize : 2 < 4 <= SIZE_MAX) by (unfold SIZE_MAX; lia).
  assert (Hwf : Queue.wf 4 {| Queue.elements := [1; 2; 3; 4];
                              Queue.read_index := 3;
                              Queue.write_index := 1 |})
    by (unfold Queue.wf; simpl; lia).
  split; [exact Hsize | split; [exact Hwf |]].
  apply (proj1 (run_refines_from_any_state 0 4 Hsize _
    [Queue.Push 5; Queue.Push 6; Queue.Pop (Some 0)] Hwf)).
Defined.

Lemma set_payload_fails_only_on_null_rvalue_witness :
  Msg.sizeof {| Msg.arg_pointer := true; Msg.arg_category := Msg.rvalue;
                Msg.arg_null := true;
                Msg.arg_bytes := replicate 8 Byte.x00 |}
  <= Msg.MAX_MESSAGE_SIZE /\
  fst (Msg.set_payload Msg.Message_default
         {| Msg.arg_pointer := true; Msg.arg_category := Msg.rvalue;
            Msg.arg_null := true;
            Msg.arg_bytes := replicate 8 Byte.x00 |}) = false.
Proof.
  assert (Hsz : Msg.sizeof
                  {| Msg.arg_pointer := true; Msg.arg_category := Msg.rvalue;
                     Msg.arg_null := true;
                     Msg.arg_bytes := replicate 8 Byte.x00 |}
                <= Msg.MAX_MESSAGE_SIZE) by (vm_compute; discriminate).
  split; [exact Hsz |].
  apply (proj1 (set_payload_fails_only_on_null_rvalue
                  Msg.Message_default _ Hsz)).
  repeat split.
Defined.

Lemma ctor_always_returns_witness :
  Msg.sizeof {| Msg.arg_pointer := false; Msg.arg_category := Msg.rvalue;
                Msg.arg_null := false;
                Msg.arg_bytes := [Byte.x00; Byte.x00; Byte.x80; Byte.x3f] |}
  <= Msg.MAX_MESSAGE_SIZE /\
  Msg.Message_ctor (Msg.MessageMetadata_of Msg.VOLUME)
    {| Msg.arg_pointer := false; Msg.arg_category := Msg.rvalue;
       Msg.arg_null := false;
       Msg.arg_bytes := [Byte.x00; Byte.x00; Byte.x80; Byte.x3f] |}
  = Msg.returned
      {| Msg.metadata := Msg.MessageMetadata_of Msg.VOLUME;
         Msg.payload := [Byte.x00; Byte.x00; Byte.x80; Byte.x3f]
                        ++ drop 4 Msg.zeroed;
         Msg.payload_size := 4 |}.
Proof.
  assert (Hsz : Msg.sizeof
                  {| Msg.arg_pointer := false; Msg.arg_category := Msg.rvalue;
                     Msg.arg_null := false;
                     Msg.arg_bytes := [Byte.x00; Byte.x00; Byte.x80; Byte.x3f] |}
                <= Msg.MAX_MESSAGE_SIZE) by (vm_compute; discriminate).
  split; [exact Hsz |].
  apply (ctor_always_returns (Msg.MessageMetadata_of Msg.VOLUME) _ Hsz).
Defined.

Lemma payload_buffer_length_witness :
  Msg.reachable
    (fst (Msg.swap Msg.Message_default
            (Msg.set_metadata Msg.Message_default
               (Msg.MessageMetadata_of Msg.STOP)))) /\
  Z.of_nat
    (length
       (Msg.payload
          (fst (Msg.swap Msg.Message_default
                  (Msg.set_metadata Msg.Message_default
                     (Msg.MessageMetadata_of Msg.STOP))))))
  = 512.
Proof.
  assert (Hreach : Msg.reachable
    (fst (Msg.swap Msg.Message_default
            (Msg.set_metadata Msg.Message_default
               (Msg.MessageMetadata_of Msg.STOP))))).
  { apply Msg.reach_swap_lhs; [apply Msg.reach_default |].
    apply Msg.reach_set_metadata, Msg.reach_default. }
  split; [exact Hreach |].
  apply (payload_buffer_length _ Hreach).
Defined.

Lemma set_payload_keeps_tail_witness :
  Z.of_nat
    (length
       (Msg.payload
          {| Msg.metadata := Msg.MessageMetadata_of Msg.VOLUME;
             Msg.payload := [Byte.x01; Byte.x02; Byte.x03]
                            ++ drop 3 Msg.zeroed;
             Msg.payload_size := 3 |}))
  = Msg.MAX_MESSAGE_SIZE /\
  Msg.sizeof {| Msg.arg_pointer := false; Msg.arg_category := Msg.lvalue;
                Msg.arg_null := false;
                Msg.arg_bytes := [Byte.x07] |}
  <= Msg.MAX_MESSAGE_SIZE /\
  drop 1
    (Msg.payload
       (snd (Msg.set_payload
               {| Msg.metadata := Msg.MessageMetadata_of Msg.VOLUME;
                  Msg.payload := [Byte.x01; Byte.x02; Byte.x03]
                                 ++ drop 3 Msg.zeroed;
                  Msg.payload_size := 3 |}
               {| Msg.arg_pointer := false; Msg.arg_category := Msg.lvalue;
                  Msg.arg_null := false;
                  Msg.arg_bytes := [Byte.x07] |})))
  = [Byte.x02; Byte.x03] ++ drop 3 Msg.zeroed.
Proof.
  assert (Hlen : Z.of_nat
    (length
       (Msg.payload
          {| Msg.metadata := Msg.MessageMetadata_of Msg.VOLUME;
             Msg.payload := [Byte.x01; Byte.x02; Byte.x03]
                            ++ drop 3 Msg.zeroed;
             Msg.payload_size := 3 |}))
    = Msg.MAX_MESSAGE_SIZE) by (vm_compute; reflexivity).
  assert (Hsz : Msg.sizeof
                  {| Msg.arg_pointer := false; Msg.arg_category := Msg.lvalue;
                     Msg.arg_null := false;
                     Msg.arg_bytes := [Byte.x07] |}
                <= Msg.MAX_MESSAGE_SIZE) by (vm_compute; discriminate).
  split; [exact Hlen | split; [exact Hsz |]].
  apply (proj1 (set_payload_keeps_tail _ _ Hlen Hsz eq_refl)).
Defined.
